(** * bcoin: the asynchronous lifecycle object, the environment and the worker jobs

    A shallow embedding of three source files of bcoin:
    - [Async]: lib/utils/async.js, the [AsyncObject] base class with its
      recallable [open] and [close] coroutines;
    - [Env]:   lib/env.js, [Environment.prototype.set];
    - [Jobs]:  lib/workers/jobs.js, the functions executed inside a worker. *)

From Stdlib Require Import ZArith Lia.
From stdpp Require Import base option list gmap strings.

Local Open Scope string_scope.
Local Open Scope list_scope.

(** ** async.js *)

Module Async.

(** Values raised by the code: [assert(cond, msg)] raises an AssertionError
    carrying [msg]; a hook raises (or rejects with) an Error of its own.
    Both are Error objects, hence truthy in [if (err)]. *)
Inductive error :=
| AssertionError (msg : string)
| HookError (msg : string).

(** The values a promise of this file is resolved with: [undefined], or an
    Error object handed to [resolve]. *)
Inductive value :=
| VUndefined
| VError (e : error).

(** How the promise returned by [open()] or [close()] settles. *)
Inductive outcome :=
| Resolved (v : value)
| Rejected (e : error).

(** Modelled from the spec: [utils/locker] (the ExclusivityLock of the
    lifecycle contract) is not among the sources.  It is a FIFO mutual
    exclusion primitive: [lock()] resolves, once the lock is free, to a
    release handle; callers that find it busy queue up in call order. *)
Record Locker := mkLocker {
  busy : bool;
  pending : list nat   (* coroutines waiting for the lock, oldest first *)
}.

(** [lock()] called by coroutine [t]: the new locker, and whether the lock
    was granted at once. *)
Definition lock (t : nat) (l : Locker) : Locker * bool :=
  if busy l then (mkLocker true (pending l ++ [t]), false)
  else (mkLocker true (pending l), true).

(** The release handle: hands the lock to the oldest waiter, if any. *)
Definition unlock (l : Locker) : Locker * option nat :=
  match pending l with
  | [] => (mkLocker false [], None)
  | t :: rest => (mkLocker true rest, Some t)
  end.

(** The suspension points of the two generators.  [co] runs a generator
    synchronously up to its first [yield] of a promise and resumes it, in a
    later turn of the event loop, once the promise has settled; a frame
    records where a call is suspended and the locals it still needs
    ([unlock], [err]). *)
Inductive frame :=
| OpenWait                                   (* open:  return yield co.wait()         *)
| OpenOnOpen (settled : option value)        (* open:  return yield this._onOpen()    *)
| OpenLock (granted : bool)                  (* open:  unlock = yield this.locker.lock() *)
| OpenHook (unlock : bool)                   (* open:  yield this._open()             *)
| OpenTick (unlock : bool) (err : option error)  (* open:  yield co.wait()            *)
| CloseWait                                  (* close: return yield co.wait()         *)
| CloseOnClose (settled : option value)      (* close: return yield this._onClose()   *)
| CloseLock (granted : bool)                 (* close: unlock = yield this.locker.lock() *)
| CloseHook (unlock : bool)                  (* close: yield this._close()            *)
| CloseTick (unlock : bool) (err : option error) (* close: yield co.wait()            *)
| Settled (o : outcome).                     (* the call's promise has settled        *)

(** What an observer of the object sees: the events emitted and the hooks
    invoked, in order. *)
Inductive event :=
| Emit (name : string) (arg : option error)
| InvokeOpen                                 (* this._open() was called  *)
| InvokeClose.                               (* this._close() was called *)

(** The fields of an [AsyncObject], and of the EventEmitter it inherits
    from, the listeners by event name.  The listeners this file registers
    are those of [_onOpen] and [_onClose]: each is registered with [once]
    and is the [resolve] of the promise a suspended call awaits; it is named
    here by that call.  The observers a user of the object registers are
    not part of the model: they see the [trace], and are assumed neither to
    throw nor to call back into the object; one of them listens to 'error'
    (an EventEmitter throws on an 'error' event nobody listens to). *)
Record AsyncObject := mkAsyncObject {
  loading : bool;
  closing : bool;
  loaded : bool;
  locker : option Locker;
  _events : gmap string (list nat)
}.

(** [function AsyncObject()] *)
Definition new_AsyncObject : AsyncObject :=
  mkAsyncObject false false false None ∅.

(** The object together with the calls in flight (a call is named by its
    position in [tasks]) and the observable trace. *)
Record World := mkWorld {
  this : AsyncObject;
  tasks : list frame;
  trace : list event
}.

Definition init : World := mkWorld new_AsyncObject [] [].

(** A component as a subclass constructs it when it installs a locker
    ([this.locker = new Locker()] after [AsyncObject.call(this)]). *)
Definition init_with_locker : World :=
  mkWorld (mkAsyncObject false false false (Some (mkLocker false [])) ∅) [] [].

(** *** Field updates *)

Definition set_loading (b : bool) (o : AsyncObject) : AsyncObject :=
  mkAsyncObject b (closing o) (loaded o) (locker o) (_events o).
Definition set_closing (b : bool) (o : AsyncObject) : AsyncObject :=
  mkAsyncObject (loading o) b (loaded o) (locker o) (_events o).
Definition set_loaded (b : bool) (o : AsyncObject) : AsyncObject :=
  mkAsyncObject (loading o) (closing o) b (locker o) (_events o).
Definition set_locker (l : option Locker) (o : AsyncObject) : AsyncObject :=
  mkAsyncObject (loading o) (closing o) (loaded o) l (_events o).
Definition set_events (ev : gmap string (list nat)) (o : AsyncObject) : AsyncObject :=
  mkAsyncObject (loading o) (closing o) (loaded o) (locker o) ev.

Definition with_this (f : AsyncObject -> AsyncObject) (w : World) : World :=
  mkWorld (f (this w)) (tasks w) (trace w).
Definition set_task (t : nat) (f : frame) (w : World) : World :=
  mkWorld (this w) (<[t := f]> (tasks w)) (trace w).
Definition spawn (f : frame) (w : World) : World :=
  mkWorld (this w) (tasks w ++ [f]) (trace w).
Definition log (evs : list event) (w : World) : World :=
  mkWorld (this w) (tasks w) (trace w ++ evs).

(** *** The event emitter *)

(** [this.listeners(event)] *)
Definition listeners (event : string) (o : AsyncObject) : list nat :=
  default [] (_events o !! event).

(** [this.once(event, resolve)], [resolve] being that of the promise call
    [t] awaits. *)
Definition once (event : string) (t : nat) (o : AsyncObject) : AsyncObject :=
  set_events (<[event := listeners event o ++ [t]]> (_events o)) o.

(** [this.removeAllListeners(event)] *)
Definition removeAllListeners (event : string) (o : AsyncObject) : AsyncObject :=
  set_events (delete event (_events o)) o.

(** Calling the [resolve] of call [t] with [v] fulfils the promise the call
    awaits with [v]; a promise that has settled stays as it is. *)
Definition resolve (v : value) (t : nat) (ts : list frame) : list frame :=
  match ts !! t with
  | Some (OpenOnOpen None) => <[t := OpenOnOpen (Some v)]> ts
  | Some (CloseOnClose None) => <[t := CloseOnClose (Some v)]> ts
  | _ => ts
  end.

(** Calling every listener of a list, in registration order, with [v]. *)
Definition call_listeners (v : value) (ls : list nat) (ts : list frame) : list frame :=
  foldl (fun acc t => resolve v t acc) ts ls.

(** The argument a listener receives: [emit(event)] passes none. *)
Definition argument (arg : option error) : value :=
  match arg with
  | Some e => VError e
  | None => VUndefined
  end.

(** [this.emit(event, arg)]: the listeners registered for [event] are
    called in order; being [once] listeners they are gone afterwards. *)
Definition emit (event : string) (arg : option error) (w : World) : World :=
  mkWorld (removeAllListeners event (this w))
          (call_listeners (argument arg) (listeners event (this w)) (tasks w))
          (trace w ++ [Emit event arg]).

(** [AsyncObject.prototype._error]:
    [listeners = this.listeners(event); this.removeAllListeners(event);
     for (...) listeners[i](err); this.emit('error', err);] *)
Definition _error (event : string) (err : error) (w : World) : World :=
  emit "error" (Some err)
    (mkWorld (removeAllListeners event (this w))
             (call_listeners (VError err) (listeners event (this w)) (tasks w))
             (trace w)).

(** [AsyncObject.prototype._onOpen], called by [t]:
    [new Promise(function(resolve, reject) { return self.once('open', resolve); })] *)
Definition _onOpen (t : nat) (w : World) : World :=
  spawn (OpenOnOpen None) (with_this (once "open" t) w).

(** [AsyncObject.prototype._onClose] *)
Definition _onClose (t : nat) (w : World) : World :=
  spawn (CloseOnClose None) (with_this (once "close" t) w).

(** *** The locker, as the object uses it *)

(** The lock is handed to a waiting call: its [lock()] promise resolves. *)
Definition grant (t : nat) (ts : list frame) : list frame :=
  match ts !! t with
  | Some (OpenLock _) => <[t := OpenLock true]> ts
  | Some (CloseLock _) => <[t := CloseLock true]> ts
  | _ => ts
  end.

(** [if (unlock) unlock();] *)
Definition release (held : bool) (w : World) : World :=
  if held then
    match locker (this w) with
    | Some l =>
        let '(l', next) := unlock l in
        mkWorld (set_locker (Some l') (this w))
                (match next with Some t => grant t (tasks w) | None => tasks w end)
                (trace w)
    | None => w
    end
  else w.

(** *** [AsyncObject.prototype.open] *)

(** From [this.emit('preopen')] to the call of the hook, whose promise the
    generator then yields. *)
Definition open_start (w : World) : World :=
  log [InvokeOpen] (with_this (set_loading true) (emit "preopen" None w)).

(** The call itself: everything up to the first suspension, where the
    call's frame comes into being. *)
Definition call_open (w : World) : World :=
  let t := length (tasks w) in
  if closing (this w) then
    spawn (Settled (Rejected (AssertionError "Cannot open while closing."))) w
  else if loaded (this w) then spawn OpenWait w
  else if loading (this w) then _onOpen t w
  else
    match locker (this w) with
    | Some l =>
        let '(l', granted) := lock t l in
        spawn (OpenLock granted) (with_this (set_locker (Some l')) w)
    | None => spawn (OpenHook false) (open_start w)
    end.

(** After the second [co.wait()]: the [if (err)] branch. *)
Definition open_failed (held : bool) (err : error) (t : nat) (w : World) : World :=
  set_task t (Settled (Rejected err))
    (release held (_error "open" err (with_this (set_loading false) w))).

(** After the second [co.wait()]: the success path. *)
Definition open_done (held : bool) (t : nat) (w : World) : World :=
  set_task t (Settled (Resolved VUndefined))
    (release held
       (emit "open" None
          (with_this (fun o => set_loaded true (set_loading false o)) w))).

(** *** [AsyncObject.prototype.close] *)

Definition close_start (w : World) : World :=
  log [InvokeClose]
    (with_this (fun o => set_loaded false (set_closing true o))
       (emit "preclose" None w)).

Definition call_close (w : World) : World :=
  let t := length (tasks w) in
  if loading (this w) then
    spawn (Settled (Rejected (AssertionError "Cannot close while loading."))) w
  else if negb (loaded (this w)) then spawn CloseWait w
  else if closing (this w) then _onClose t w
  else
    match locker (this w) with
    | Some l =>
        let '(l', granted) := lock t l in
        spawn (CloseLock granted) (with_this (set_locker (Some l')) w)
    | None => spawn (CloseHook false) (close_start w)
    end.

Definition close_failed (held : bool) (err : error) (t : nat) (w : World) : World :=
  set_task t (Settled (Rejected err))
    (release held (_error "close" err (with_this (set_closing false) w))).

Definition close_done (held : bool) (t : nat) (w : World) : World :=
  set_task t (Settled (Resolved VUndefined))
    (release held (emit "close" None (with_this (set_closing false) w))).

(** *** The event loop *)

(** Modelled from the spec: [utils/co], which runs the generators, is not
    among the sources.  The coordinator is single-threaded and cooperative:
    a call runs without interruption up to its next [yield] of a promise,
    is suspended there, and goes on once that promise has settled, while
    other calls may run in between.  So what can happen next is: a caller
    invokes [open()] or [close()]; the promise returned by a hook settles
    (the hooks [_open] and [_close] belong to the subclass: when and how
    they settle is up to the environment) and the call that awaits it goes
    on to its [co.wait()]; or a suspended call whose awaited promise has
    settled (a tick has passed, the lock was granted, its [once] listener
    was called) is resumed. *)
Inductive label :=
| CallOpen
| CallClose
| HookOk (t : nat)
| HookFail (t : nat) (e : error)
| Resume (t : nat).

Definition resume (t : nat) (w : World) : option World :=
  match tasks w !! t with
  | Some OpenWait => Some (set_task t (Settled (Resolved VUndefined)) w)
  | Some (OpenOnOpen (Some v)) => Some (set_task t (Settled (Resolved v)) w)
  | Some (OpenLock true) => Some (set_task t (OpenHook true) (open_start w))
  | Some (OpenTick held None) => Some (open_done held t w)
  | Some (OpenTick held (Some err)) => Some (open_failed held err t w)
  | Some CloseWait => Some (set_task t (Settled (Resolved VUndefined)) w)
  | Some (CloseOnClose (Some v)) => Some (set_task t (Settled (Resolved v)) w)
  | Some (CloseLock true) => Some (set_task t (CloseHook true) (close_start w))
  | Some (CloseTick held None) => Some (close_done held t w)
  | Some (CloseTick held (Some err)) => Some (close_failed held err t w)
  | _ => None
  end.

Definition hook_settles (t : nat) (err : option error) (w : World) : option World :=
  match tasks w !! t with
  | Some (OpenHook held) => Some (set_task t (OpenTick held err) w)
  | Some (CloseHook held) => Some (set_task t (CloseTick held err) w)
  | _ => None
  end.

(** One step; [None] when the step is not enabled. *)
Definition step (l : label) (w : World) : option World :=
  match l with
  | CallOpen => Some (call_open w)
  | CallClose => Some (call_close w)
  | HookOk t => hook_settles t None w
  | HookFail t e => hook_settles t (Some e) w
  | Resume t => resume t w
  end.

Fixpoint run (ls : list label) (w : World) : option World :=
  match ls with
  | [] => Some w
  | l :: ls' => match step l w with Some w' => run ls' w' | None => None end
  end.

(** *** Observations *)

Inductive LifecycleState := Idle | Opening | Open | Closing.

(** The state the three flags encode, when they encode one. *)
Definition state_of (o : AsyncObject) : option LifecycleState :=
  match loading o, closing o, loaded o with
  | false, false, false => Some Idle
  | true, false, false => Some Opening
  | false, false, true => Some Open
  | false, true, false => Some Closing
  | _, _, _ => None
  end.

Definition at_most_one (o : AsyncObject) : bool :=
  match state_of o with Some _ => true | None => false end.

Definition is_InvokeOpen (e : event) : bool :=
  match e with InvokeOpen => true | _ => false end.

(** How often each hook has been invoked. *)
Definition opens (w : World) : nat := length (filter is_InvokeOpen (trace w)).

(** *** Sequential runs *)

(** The steps of one call up to the invocation of its hook, when nothing
    else interleaves: with a locker the call first awaits [lock()]. *)
Definition start (call : label) (w : World) : list label :=
  match locker (this w) with
  | Some _ => [call; Resume (length (tasks w))]
  | None => [call]
  end.

(** One whole transition: the call, the hook's promise settling
    ([settle]), and the resumption after [co.wait()]. *)
Definition transition (call : label) (settle : nat -> label) (w : World) : list label :=
  start call w ++ [settle (length (tasks w)); Resume (length (tasks w))].

(** Nobody holds or awaits the lock (or there is no locker). *)
Definition lock_free (o : AsyncObject) : Prop :=
  locker o = None \/ locker o = Some (mkLocker false []).

(** The error of the two assertions. *)
Definition usage_error (l : label) : error :=
  match l with
  | CallOpen => AssertionError "Cannot open while closing."
  | _ => AssertionError "Cannot close while loading."
  end.

(** *** The shape of the worlds of a component without locker *)

(** The transition a suspended call is in the middle of: it has invoked its
    hook and not yet finished. *)
Definition in_transition (f : frame) : option LifecycleState :=
  match f with
  | OpenHook _ | OpenTick _ _ => Some Opening
  | CloseHook _ | CloseTick _ _ => Some Closing
  | _ => None
  end.

Definition awaits_lock (f : frame) : bool :=
  match f with
  | OpenLock _ | CloseLock _ => true
  | _ => false
  end.

(** Is the call suspended on a [once] listener that has not fired? *)
Definition awaits_event (f : frame) : bool :=
  match f with
  | OpenOnOpen None | CloseOnClose None => true
  | _ => false
  end.

Definition transitions (ts : list frame) : list LifecycleState :=
  omap in_transition ts.

Definition expected_transitions (o : AsyncObject) : list LifecycleState :=
  match state_of o with
  | Some Opening => [Opening]
  | Some Closing => [Closing]
  | _ => []
  end.

(** What every world of a component without locker satisfies: the flags
    encode a state, no call waits for a lock, and the calls in the middle of
    a transition are exactly the one the flags announce. *)
Record lockless_inv (w : World) : Prop := mk_lockless_inv {
  inv_locker : locker (this w) = None;
  inv_flags : at_most_one (this w) = true;
  inv_no_lock : Forall (fun f => awaits_lock f = false) (tasks w);
  inv_transitions : transitions (tasks w) = expected_transitions (this w)
}.

(** The worlds an [AsyncObject] reaches from its constructor. *)
Definition reachable (w : World) : Prop := exists ls, run ls init = Some w.

(** Unfolding the model on a world whose new call is the last task. *)
Ltac unfold_model :=
  unfold call_open, call_close, open_start, close_start, open_done, open_failed,
    close_done, close_failed, hook_settles, resume, release,
    emit, _error, _onOpen, _onClose, removeAllListeners, once,
    set_task, log, with_this, spawn,
    set_loading, set_closing, set_loaded, set_locker, set_events,
    lock, unlock; simpl.

(** ** Lemmas on the task list *)

Lemma lookup_spawned (ts : list frame) (n : nat) (f : frame) :
  length ts = n -> (ts ++ [f]) !! n = Some f.
Proof. intros <-. by apply list_lookup_middle. Qed.

Lemma insert_spawned (ts : list frame) (n : nat) (f g : frame) :
  length ts = n -> <[n := g]> (ts ++ [f]) = ts ++ [g].
Proof.
  intros <-. induction ts as [|x ts IH]; simpl; [done | by rewrite IH].
Qed.

Lemma resolve_length v t ts : length (resolve v t ts) = length ts.
Proof.
  unfold resolve. destruct (ts !! t) as [[| [] | | | | | [] | | | |]|];
    by rewrite ?length_insert.
Qed.

Lemma call_listeners_length v ls ts : length (call_listeners v ls ts) = length ts.
Proof.
  unfold call_listeners. revert ts.
  induction ls as [|t ls IH]; intros ts; simpl; [done|].
  by rewrite IH, resolve_length.
Qed.

Lemma resolve_other v t ts i f :
  ts !! i = Some f -> awaits_event f = false -> resolve v t ts !! i = Some f.
Proof.
  intros Hi Hf. unfold resolve.
  destruct (decide (t = i)) as [->|Hne].
  - rewrite Hi. by destruct f as [| [] | | | | | [] | | | |].
  - destruct (ts !! t) as [[| [] | | | | | [] | | | |]|];
      by rewrite ?list_lookup_insert_ne.
Qed.

Lemma call_listeners_other v ls ts i f :
  ts !! i = Some f -> awaits_event f = false ->
  call_listeners v ls ts !! i = Some f.
Proof.
  unfold call_listeners. revert ts.
  induction ls as [|t ls IH]; intros ts Hi Hf; simpl; [done|].
  apply IH; [by apply resolve_other | done].
Qed.

(** A call that does not wait for an event is out of the listeners' reach:
    they pass it by. *)
Lemma resolve_spawned v t ts f :
  awaits_event f = false -> resolve v t (ts ++ [f]) = resolve v t ts ++ [f].
Proof.
  intros Hf. unfold resolve.
  destruct (decide (t < length ts)) as [Hlt|Hge].
  - rewrite lookup_app_l by done.
    destruct (ts !! t) as [[| [] | | | | | [] | | | |]|]; try done;
      by rewrite insert_app_l.
  - rewrite (lookup_ge_None_2 ts t) by lia.
    destruct (decide (t = length ts)) as [->|Hne].
    + rewrite (lookup_spawned ts _ f eq_refl).
      by destruct f as [| [] | | | | | [] | | | |].
    + rewrite lookup_ge_None_2; [done|]. rewrite length_app. simpl. lia.
Qed.

Lemma call_listeners_spawned v ls ts f :
  awaits_event f = false ->
  call_listeners v ls (ts ++ [f]) = call_listeners v ls ts ++ [f].
Proof.
  intros Hf. unfold call_listeners. revert ts.
  induction ls as [|t ls IH]; intros ts; simpl; [done|].
  by rewrite resolve_spawned, IH.
Qed.

Ltac same_length :=
  repeat rewrite ?length_app, ?length_insert, ?call_listeners_length;
  solve [reflexivity | simpl; lia].

Ltac run_model :=
  repeat (unfold_model;
          rewrite ?call_listeners_spawned by reflexivity;
          rewrite ?insert_spawned by same_length;
          rewrite ?lookup_spawned by same_length;
          simpl).

Lemma hooks_logged (P : event -> bool) (tr evs : list event) :
  length (filter P (tr ++ evs)) = length (filter P tr) + length (filter P evs).
Proof. by rewrite filter_app, length_app. Qed.

Lemma lookup_settled (ts : list frame) (t : nat) (f : frame) :
  t < length ts -> <[t := f]> ts !! t = Some f.
Proof. apply list_lookup_insert_eq. Qed.

Lemma close_not_loaded_run (w : World) :
  loading (this w) = false ->
  loaded (this w) = false ->
  run [CallClose; Resume (length (tasks w))] w =
    Some (mkWorld (this w)
                  (tasks w ++ [Settled (Resolved VUndefined)])
                  (trace w)).
Proof.
  intros Hl Hd. simpl. unfold call_close. rewrite Hl, Hd. by run_model.
Qed.

(** ** The invariant of a component without locker *)

Lemma transitions_app ts ts' :
  transitions (ts ++ ts') = transitions ts ++ transitions ts'.
Proof. apply omap_app. Qed.

Lemma transitions_insert_same ts t f g :
  ts !! t = Some f -> in_transition g = in_transition f ->
  transitions (<[t := g]> ts) = transitions ts.
Proof.
  revert t. induction ts as [|x ts IH]; intros [|t] Ht Hg; simpl in *; try done.
  - injection Ht as ->. unfold transitions. simpl. by rewrite Hg.
  - unfold transitions in *. simpl. by rewrite (IH t).
Qed.

Lemma transitions_elem ts t f k :
  ts !! t = Some f -> in_transition f = Some k -> k ∈ transitions ts.
Proof.
  intros Ht Hf. apply list_elem_of_omap. exists f. split; [|done].
  by apply list_elem_of_lookup_2 with t.
Qed.

Lemma transitions_insert_end ts t f g k :
  ts !! t = Some f -> in_transition f = Some k -> transitions ts = [k] ->
  in_transition g = None ->
  transitions (<[t := g]> ts) = [].
Proof.
  revert t. induction ts as [|x ts IH]; intros [|t] Ht Hf Hk Hg; simpl in *; try done.
  - injection Ht as ->. unfold transitions in *. simpl in *.
    rewrite Hf in Hk. rewrite Hg. by injection Hk.
  - unfold transitions in *. simpl in *.
    destruct (in_transition x) eqn:Hx.
    + injection Hk as -> Hk. 
      pose proof (transitions_elem ts t f k Ht Hf) as Hin.
      unfold transitions in Hin. rewrite Hk in Hin. by apply elem_of_nil in Hin.
    + by apply (IH t).
Qed.


Lemma resolve_transitions v t ts : transitions (resolve v t ts) = transitions ts.
Proof.
  unfold resolve. destruct (ts !! t) as [f|] eqn:Ht; [|done].
  destruct f as [| [] | | | | | [] | | | |]; try done;
    by eapply transitions_insert_same.
Qed.

Lemma call_listeners_transitions v ls ts :
  transitions (call_listeners v ls ts) = transitions ts.
Proof.
  unfold call_listeners. revert ts.
  induction ls as [|t ls IH]; intros ts; simpl; [done|].
  by rewrite IH, resolve_transitions.
Qed.

Lemma resolve_no_lock v t ts :
  Forall (fun f => awaits_lock f = false) ts ->
  Forall (fun f => awaits_lock f = false) (resolve v t ts).
Proof.
  intros H. unfold resolve. destruct (ts !! t) as [f|] eqn:Ht; [|done].
  destruct f as [| [] | | | | | [] | | | |]; try done;
    by apply Forall_insert.
Qed.

Lemma call_listeners_no_lock v ls ts :
  Forall (fun f => awaits_lock f = false) ts ->
  Forall (fun f => awaits_lock f = false) (call_listeners v ls ts).
Proof.
  unfold call_listeners. revert ts.
  induction ls as [|t ls IH]; intros ts H; simpl; [done|].
  by apply IH, resolve_no_lock.
Qed.

Lemma in_transition_state (w : World) t f k :
  lockless_inv w -> tasks w !! t = Some f -> in_transition f = Some k ->
  state_of (this w) = Some k.
Proof.
  intros [_ _ _ Htr] Ht Hf.
  pose proof (transitions_elem _ _ _ _ Ht Hf) as Hin.
  rewrite Htr in Hin. unfold expected_transitions in Hin.
  destruct (state_of (this w)) as [[]|]; simpl in Hin;
    try (by apply elem_of_nil in Hin);
    apply list_elem_of_singleton in Hin; by subst.
Qed.

Lemma lockless_inv_step (w w' : World) (l : label) :
  lockless_inv w -> step l w = Some w' -> lockless_inv w'.
Proof.
  intros Hinv Hstep.
  destruct l as [| | t | t e | t]; simpl in Hstep.
  - injection Hstep as <-. destruct Hinv as [Hlk Hfl Hnl Htr].
    destruct w as [[ld cl lded lk ev] ts tr]. simpl in *. subst lk.
    unfold call_open; simpl.
    destruct cl, lded, ld; try discriminate; run_model;
      (split; simpl;
       [ done | done
       | apply Forall_app; split;
           [by repeat apply call_listeners_no_lock | by repeat constructor]
       | rewrite transitions_app, ?call_listeners_transitions, Htr; reflexivity ]).
  - injection Hstep as <-. destruct Hinv as [Hlk Hfl Hnl Htr].
    destruct w as [[ld cl lded lk ev] ts tr]. simpl in *. subst lk.
    unfold call_close; simpl.
    destruct cl, lded, ld; try discriminate; run_model;
      (split; simpl;
       [ done | done
       | apply Forall_app; split;
           [by repeat apply call_listeners_no_lock | by repeat constructor]
       | rewrite transitions_app, ?call_listeners_transitions, Htr; reflexivity ]).
  - unfold hook_settles in Hstep.
    destruct (tasks w !! t) as [f|] eqn:Ht; [|done].
    destruct Hinv as [Hlk Hfl Hnl Htr].
    destruct f; try done; injection Hstep as <-;
      (split; simpl; [done | done | by apply Forall_insert |
        by erewrite transitions_insert_same]).
  - unfold hook_settles in Hstep.
    destruct (tasks w !! t) as [f|] eqn:Ht; [|done].
    destruct Hinv as [Hlk Hfl Hnl Htr].
    destruct f; try done; injection Hstep as <-;
      (split; simpl; [done | done | by apply Forall_insert |
        by erewrite transitions_insert_same]).
  - unfold resume in Hstep.
    destruct (tasks w !! t) as [f|] eqn:Ht; [|done].
    pose proof (fun k => in_transition_state w t f k Hinv Ht) as Hst.
    destruct Hinv as [Hlk Hfl Hnl Htr].
    pose proof (Forall_lookup_1 _ _ _ _ Hnl Ht) as Hnot.
    destruct f as [| [v|] | [] | | held [err|] | | [v|] | [] | | held [err|] |];
      try done; injection Hstep as <-;
      try (split; simpl; [done | done | by apply Forall_insert |
            by erewrite transitions_insert_same]).
    all: specialize (Hst _ eq_refl).
    all: destruct w as [[ld cl lded lk ev] ts tr]; simpl in *; subst lk.
    all: unfold state_of in Hst; simpl in Hst.
    all: destruct ld, cl, lded; try discriminate.
    all: run_model; destruct held; simpl.
    all: split; simpl; [done | done |
           by apply Forall_insert; [repeat apply call_listeners_no_lock|] | ].
    all: unfold expected_transitions; simpl.
    all: match type of Ht with _ = Some ?f =>
           eapply (transitions_insert_end _ _ f)
         end;
           [ repeat (apply call_listeners_other; [|reflexivity]); exact Ht
           | reflexivity
           | by rewrite !call_listeners_transitions | reflexivity ].
Qed.

Lemma lockless_inv_init : lockless_inv init.
Proof. split; simpl; [done | done | constructor | done]. Qed.

Lemma lockless_inv_run (ls : list label) (w w' : World) :
  lockless_inv w -> run ls w = Some w' -> lockless_inv w'.
Proof.
  revert w. induction ls as [|l ls IH]; intros w Hinv Hrun; simpl in Hrun.
  - by injection Hrun as <-.
  - destruct (step l w) as [w1|] eqn:Hstep; [|done].
    eapply IH; [|done]. by eapply lockless_inv_step.
Qed.

(** ** Calls that meet the opposite transition *)

(** C4: [open()] while [closing] is set, and [close()] while [loading] is
    set, settle at once, within the call itself, as rejected with the
    assertion's error: the object (its flags, its locker, its listeners),
    every call in flight and the trace (no event, no hook) are as before. *)
Theorem opposite_call_fails_fast (w : World) (l : label) :
  (l = CallOpen /\ closing (this w) = true) \/
  (l = CallClose /\ loading (this w) = true) ->
  step l w =
    Some (mkWorld (this w)
                  (tasks w ++ [Settled (Rejected (usage_error l))])
                  (trace w)).
Proof.
  intros [[-> H] | [-> H]]; simpl.
  - unfold call_open. by rewrite H.
  - unfold call_close. by rewrite H.
Qed.

Lemma opposite_call_fails_fast_witness :
  exists w,
    run [CallOpen] init = Some w /\
    loading (this w) = true /\
    step CallClose w =
      Some (mkWorld (this w)
              (tasks w ++
                 [Settled (Rejected (AssertionError "Cannot close while loading."))])
              (trace w)).
Proof.
  eexists. split; [reflexivity|]. split; [reflexivity|].
  apply (opposite_call_fails_fast _ CallClose). right. split; reflexivity.
Defined.

(** ** [close()] on a component that is not loaded *)

(** C7, as the code has it: when neither [loading] nor [loaded] is set
    (Idle, or Closing), [close()] suspends on [co.wait()] and then resolves
    with [undefined]; the teardown hook is not invoked, no event is emitted
    and the object is unchanged. *)
Theorem close_when_not_loaded (w : World) :
  loading (this w) = false ->
  loaded (this w) = false ->
  run [CallClose; Resume (length (tasks w))] w =
    Some (mkWorld (this w)
                  (tasks w ++ [Settled (Resolved VUndefined)])
                  (trace w)).
Proof. apply close_not_loaded_run. Qed.

Lemma close_when_not_loaded_witness :
  run [CallClose; Resume 0] init =
    Some (mkWorld new_AsyncObject [Settled (Resolved VUndefined)] []).
Proof. apply (close_when_not_loaded init); reflexivity. Defined.

(** C7, the state the claim does not hold in: a component that is Opening
    is not Open, and [close()] on it is rejected with the assertion's error
    instead of returning successfully. *)
Lemma close_while_opening_is_rejected :
  exists w w',
    run [CallOpen] init = Some w /\
    state_of (this w) = Some Opening /\
    step CallClose w = Some w' /\
    tasks w' !! 1 =
      Some (Settled (Rejected (AssertionError "Cannot close while loading."))).
Proof. do 2 eexists. repeat split; reflexivity. Qed.

(** ** A hook that fails *)


(** The world of a component that has been opened, with or without locker. *)
Definition opened (w0 : World) : World :=
  default w0 (run (transition CallOpen HookOk w0) w0).





(** C2, what the code does: a second [open()] made while the first is
    Opening waits on [_onOpen()]; when the hook fails with [e], [_error]
    calls that waiter's [resolve] with [e], so the first call is rejected
    with [e] while the waiter is resolved, with the error as its value. *)
Theorem waiter_of_failed_open_is_resolved (e : error) :
  exists w,
    run [CallOpen; CallOpen; HookFail 0 e; Resume 0; Resume 1] init = Some w /\
    tasks w = [Settled (Rejected e); Settled (Resolved (VError e))].
Proof. eexists. split; reflexivity. Qed.

(** ** Overlapping calls *)

(** C5, what the code does with a locker: two [open()] calls made back to
    back on an Idle component both pass the tests of [loaded] and [loading]
    before either has set [loading], queue on the lock, and each invokes
    the initialization hook. *)
Theorem overlapping_open_with_locker_invokes_hook_twice :
  exists w,
    run [CallOpen; CallOpen; Resume 0; HookOk 0; Resume 0;
         Resume 1; HookOk 1; Resume 1] init_with_locker = Some w /\
    tasks w = [Settled (Resolved VUndefined); Settled (Resolved VUndefined)] /\
    opens w = 2.
Proof. eexists. repeat split; reflexivity. Qed.

(** C10, what the code does with a locker: in the same run, once the
    second call is handed the lock it sets [loading] on a component that is
    already [loaded]. *)
Theorem flags_overlap_with_locker :
  exists w,
    run [CallOpen; CallOpen; Resume 0; HookOk 0; Resume 0; Resume 1]
        init_with_locker = Some w /\
    loading (this w) = true /\
    loaded (this w) = true /\
    at_most_one (this w) = false.
Proof. eexists. repeat split; reflexivity. Qed.

(** X1: [open()] on a component whose [loaded] or [loading] flag is set (and
    that is not closing) never reaches the hook: the call suspends on
    [co.wait()] or on [_onOpen()], and resuming such a call only settles it. *)
Theorem open_when_loaded_or_loading_skips_hook (w : World) :
  closing (this w) = false ->
  loaded (this w) = true \/ loading (this w) = true ->
  (exists f,
     (f = OpenWait \/ f = OpenOnOpen None) /\
     tasks (call_open w) = tasks w ++ [f]) /\
  trace (call_open w) = trace w /\
  state_of (this (call_open w)) = state_of (this w) /\
  forall w1 w2 t,
    (tasks w1 !! t = Some OpenWait \/
     exists v, tasks w1 !! t = Some (OpenOnOpen v)) ->
    step (Resume t) w1 = Some w2 ->
    this w2 = this w1 /\ trace w2 = trace w1 /\
    exists v, tasks w2 = <[t := Settled (Resolved v)]> (tasks w1).
Proof.
  intros Hc Hl. split; [|split; [|split]].
  - unfold call_open. rewrite Hc.
    destruct (loaded (this w)) eqn:Hd.
    + exists OpenWait. split; [by left | done].
    + destruct Hl as [Hl | Hl]; [done|]. rewrite Hl.
      exists (OpenOnOpen None). split; [by right | done].
  - unfold call_open. rewrite Hc.
    destruct (loaded (this w)); [done|].
    destruct Hl as [Hl | Hl]; [done|]. by rewrite Hl.
  - unfold call_open. rewrite Hc.
    destruct (loaded (this w)) eqn:Hd; [done|].
    destruct Hl as [Hl | Hl]; [done|]. rewrite Hl.
    unfold state_of. simpl. by rewrite Hl, Hc, Hd.
  - intros w1 w2 t Ht. simpl. unfold resume.
    destruct Ht as [-> | [v ->]].
    + intros [= <-]. repeat split. by exists VUndefined.
    + destruct v as [v|]; [|done]. intros [= <-]. repeat split. by exists v.
Qed.

Lemma open_when_loaded_or_loading_skips_hook_witness :
  exists w,
    run [CallOpen] init = Some w /\
    trace (call_open w) = trace w /\
    tasks (call_open w) = tasks w ++ [OpenOnOpen None].
Proof.
  eexists. split; [reflexivity|].
  destruct (open_when_loaded_or_loading_skips_hook
              (mkWorld (mkAsyncObject true false false None ∅)
                       [OpenHook false] [Emit "preopen" None; InvokeOpen]))
    as (_ & Htr & _); [reflexivity | by right |].
  split; [exact Htr | reflexivity].
Defined.

(** X2: in every world an [AsyncObject] reaches from its constructor (which
    leaves [locker] null) the three flags are mutually exclusive: at most
    one of [loading], [closing] and [loaded] is set. *)
Theorem flags_exclusive_without_locker (w : World) :
  reachable w -> at_most_one (this w) = true.
Proof.
  intros [ls Hrun]. apply inv_flags.
  exact (lockless_inv_run ls init w lockless_inv_init Hrun).
Qed.

Lemma flags_exclusive_without_locker_witness :
  at_most_one (mkAsyncObject false false true None ∅) = true.
Proof.
  apply (flags_exclusive_without_locker
           (mkWorld (mkAsyncObject false false true None ∅)
                    [Settled (Resolved VUndefined); Settled (Resolved VUndefined)]
                    [Emit "preopen" None; InvokeOpen; Emit "open" None])).
  exists [CallOpen; CallOpen; HookOk 0; Resume 0; Resume 1]. reflexivity.
Defined.

(** X3: without locker the initialization hook runs once per Idle-to-Opening
    transition: a step of a reachable world invokes it only when it is an
    [open()] call on an Idle component, which thereby becomes Opening, and
    then exactly once. *)
Theorem hook_once_per_opening_without_locker (w w' : World) (l : label) :
  reachable w -> step l w = Some w' ->
  opens w' = opens w \/
  (l = CallOpen /\ state_of (this w) = Some Idle /\
   state_of (this w') = Some Opening /\ opens w' = S (opens w)).
Proof.
  intros [ls Hrun] Hstep.
  pose proof (lockless_inv_run ls init w lockless_inv_init Hrun) as Hinv.
  destruct l as [| | t | t e | t]; simpl in Hstep.
  - injection Hstep as <-. destruct Hinv as [Hlk Hfl Hnl Htr].
    destruct w as [[ld cl lded lk ev] ts tr]. simpl in *. subst lk.
    unfold call_open; simpl.
    destruct cl, lded, ld; try discriminate; run_model; try (by left).
    right. repeat split. unfold opens; simpl. rewrite !hooks_logged; simpl; lia.
  - left. injection Hstep as <-. destruct Hinv as [Hlk Hfl Hnl Htr].
    destruct w as [[ld cl lded lk ev] ts tr]. simpl in *. subst lk.
    unfold call_close; simpl.
    destruct cl, lded, ld; try discriminate; run_model; try done.
    unfold opens; simpl. rewrite !hooks_logged; simpl; lia.
  - left. unfold hook_settles in Hstep.
    destruct (tasks w !! t) as [[]|]; try done; by injection Hstep as <-.
  - left. unfold hook_settles in Hstep.
    destruct (tasks w !! t) as [[]|]; try done; by injection Hstep as <-.
  - left. unfold resume in Hstep.
    destruct (tasks w !! t) as [f|] eqn:Ht; [|done].
    destruct Hinv as [Hlk Hfl Hnl Htr].
    pose proof (Forall_lookup_1 _ _ _ _ Hnl Ht) as Hnot.
    destruct f as [| [v|] | [] | | held [err|] | | [v|] | [] | | held [err|] |];
      try done; injection Hstep as <-; try done.
    all: destruct w as [[ld cl lded lk ev] ts tr]; simpl in *; subst lk.
    all: unfold_model; destruct held; simpl.
    all: unfold opens; simpl; rewrite !hooks_logged; simpl; lia.
Qed.

Lemma hook_once_per_opening_without_locker_witness :
  opens (call_open init) = opens init \/
  (CallOpen = CallOpen /\ state_of (this init) = Some Idle /\
   state_of (this (call_open init)) = Some Opening /\
   opens (call_open init) = S (opens init)).
Proof.
  apply (hook_once_per_opening_without_locker init (call_open init) CallOpen).
  - exists []. reflexivity.
  - reflexivity.
Defined.

(** X4: without locker, and whatever other calls were made in between: when
    the hook of an [open()] or of a [close()] has failed with [e], the call
    is rejected with [e] on its resumption and the component is left Idle. *)
Theorem failed_hook_leaves_idle_without_locker
    (w : World) (t : nat) (held : bool) (e : error) :
  reachable w ->
  tasks w !! t = Some (OpenTick held (Some e)) \/
  tasks w !! t = Some (CloseTick held (Some e)) ->
  exists w',
    step (Resume t) w = Some w' /\
    tasks w' !! t = Some (Settled (Rejected e)) /\
    state_of (this w') = Some Idle.
Proof.
  intros [ls Hrun] Ht.
  pose proof (lockless_inv_run ls init w lockless_inv_init Hrun) as Hinv.
  pose proof (fun f k => in_transition_state w t f k Hinv) as Hst.
  destruct Hinv as [Hlk Hfl Hnl Htr]. simpl. unfold resume.
  destruct Ht as [Ht | Ht]; rewrite Ht; specialize (Hst _ _ Ht eq_refl);
    pose proof (lookup_lt_Some _ _ _ Ht) as Hlt;
    destruct w as [[ld cl lded lk ev] ts tr]; simpl in *; subst lk;
    unfold state_of in Hst; simpl in Hst;
    destruct ld, cl, lded; try discriminate;
    eexists; (split; [reflexivity|]); unfold_model; destruct held; simpl;
    (split; [apply lookup_settled; by rewrite !call_listeners_length | reflexivity]).
Qed.

Lemma failed_hook_leaves_idle_without_locker_witness :
  exists w,
    run [CallOpen; CallOpen; HookFail 0 (HookError "init")] init = Some w /\
    exists w',
      step (Resume 0) w = Some w' /\
      tasks w' !! 0 = Some (Settled (Rejected (HookError "init"))) /\
      state_of (this w') = Some Idle.
Proof.
  eexists. split; [reflexivity|].
  apply (failed_hook_leaves_idle_without_locker _ 0 false (HookError "init")).
  - exists [CallOpen; CallOpen; HookFail 0 (HookError "init")]. reflexivity.
  - by left.
Defined.

(** ** More on the lifecycle *)




(** Is the call suspended on [_onClose()]? *)
Definition is_close_waiter (f : frame) : bool :=
  match f with CloseOnClose _ => true | _ => false end.

(** What the waiters of a component without locker satisfy: no call is
    suspended on [_onClose()], and a call suspended on [_onOpen()] whose
    listener has not been called is among the listeners of 'open'. *)
Record waiters_inv (w : World) : Prop := mk_waiters_inv {
  inv_no_close_waiter : Forall (fun f => is_close_waiter f = false) (tasks w);
  inv_open_waiters :
    forall t, tasks w !! t = Some (OpenOnOpen None) ->
              t ∈ listeners "open" (this w)
}.


Lemma open_run_ok (w : World) :
  state_of (this w) = Some Idle -> lock_free (this w) ->
  exists w',
    run (transition CallOpen HookOk w) w = Some w' /\
    tasks w' !! length (tasks w) = Some (Settled (Resolved VUndefined)) /\
    length (tasks w') = S (length (tasks w)) /\
    state_of (this w') = Some Open /\
    locker (this w') = locker (this w) /\
    trace w' = trace w ++ [Emit "preopen" None; InvokeOpen; Emit "open" None].
Proof.
  destruct w as [[ld cl lded lk ev] ts tr]. unfold state_of, lock_free. simpl.
  intros Hs Hl.
  destruct ld, cl, lded; try discriminate. clear Hs.
  destruct Hl as [-> | ->]; unfold transition, start; simpl; run_model;
    (eexists; split; [reflexivity|]; simpl;
     split; [apply lookup_spawned; same_length|];
     split; [same_length|];
     split; [reflexivity|];
     split; [reflexivity|];
     by rewrite <- !app_assoc).
Qed.

Lemma close_run_ok (w : World) :
  state_of (this w) = Some Open -> lock_free (this w) ->
  exists w',
    run (transition CallClose HookOk w) w = Some w' /\
    tasks w' !! length (tasks w) = Some (Settled (Resolved VUndefined)) /\
    length (tasks w') = S (length (tasks w)) /\
    state_of (this w') = Some Idle /\
    locker (this w') = locker (this w) /\
    trace w' = trace w ++ [Emit "preclose" None; InvokeClose; Emit "close" None].
Proof.
  destruct w as [[ld cl lded lk ev] ts tr]. unfold state_of, lock_free. simpl.
  intros Hs Hl.
  destruct ld, cl, lded; try discriminate. clear Hs.
  destruct Hl as [-> | ->]; unfold transition, start; simpl; run_model;
    (eexists; split; [reflexivity|]; simpl;
     split; [apply lookup_spawned; same_length|];
     split; [same_length|];
     split; [reflexivity|];
     split; [reflexivity|];
     by rewrite <- !app_assoc).
Qed.

(** ** Transitions that succeed *)

(** X6: [open()] on an Idle component (its lock, if it has a locker, being
    free) whose initialization hook succeeds resolves with [undefined] and
    leaves the component Open and the lock as it was; 'preopen' is emitted
    before the hook is invoked and 'open' after it has succeeded, and
    nothing else is. *)
Theorem open_succeeds (w : World) :
  state_of (this w) = Some Idle -> lock_free (this w) ->
  exists w',
    run (transition CallOpen HookOk w) w = Some w' /\
    tasks w' !! length (tasks w) = Some (Settled (Resolved VUndefined)) /\
    length (tasks w') = S (length (tasks w)) /\
    state_of (this w') = Some Open /\
    locker (this w') = locker (this w) /\
    trace w' = trace w ++ [Emit "preopen" None; InvokeOpen; Emit "open" None].
Proof. apply open_run_ok. Qed.

Lemma open_succeeds_witness :
  exists w',
    run (transition CallOpen HookOk init_with_locker) init_with_locker = Some w' /\
    tasks w' !! length (tasks init_with_locker)
      = Some (Settled (Resolved VUndefined)) /\
    length (tasks w') = S (length (tasks init_with_locker)) /\
    state_of (this w') = Some Open /\
    locker (this w') = locker (this init_with_locker) /\
    trace w' = trace init_with_locker
               ++ [Emit "preopen" None; InvokeOpen; Emit "open" None].
Proof. apply (open_succeeds init_with_locker); [reflexivity | by right]. Defined.

(** X7: [close()] on an Open component (the lock being free) whose teardown
    hook succeeds resolves with [undefined] and leaves the component Idle
    and the lock as it was; 'preclose' is emitted before the hook is invoked
    and 'close' after it has succeeded, and nothing else is. *)
Theorem close_succeeds (w : World) :
  state_of (this w) = Some Open -> lock_free (this w) ->
  exists w',
    run (transition CallClose HookOk w) w = Some w' /\
    tasks w' !! length (tasks w) = Some (Settled (Resolved VUndefined)) /\
    length (tasks w') = S (length (tasks w)) /\
    state_of (this w') = Some Idle /\
    locker (this w') = locker (this w) /\
    trace w' = trace w ++ [Emit "preclose" None; InvokeClose; Emit "close" None].
Proof. apply close_run_ok. Qed.

Lemma close_succeeds_witness :
  exists w',
    run (transition CallClose HookOk (opened init)) (opened init) = Some w' /\
    tasks w' !! length (tasks (opened init))
      = Some (Settled (Resolved VUndefined)) /\
    length (tasks w') = S (length (tasks (opened init))) /\
    state_of (this w') = Some Idle /\
    locker (this w') = locker (this (opened init)) /\
    trace w' = trace (opened init)
               ++ [Emit "preclose" None; InvokeClose; Emit "close" None].
Proof. apply (close_succeeds (opened init)); [reflexivity | by left]. Defined.





(** ** More invariants of a component without locker *)


Lemma transitions_cons (x : frame) (ts : list frame) :
  transitions (x :: ts) =
    match in_transition x with
    | Some k => k :: transitions ts
    | None => transitions ts
    end.
Proof. reflexivity. Qed.

Lemma transitions_unique (ts : list frame) (i j : nat) (f g : frame) :
  length (transitions ts) <= 1 ->
  ts !! i = Some f -> ts !! j = Some g ->
  is_Some (in_transition f) -> is_Some (in_transition g) -> i = j.
Proof.
  revert i j. induction ts as [|x ts IH]; intros i j Hlen Hi Hj [k Hf] [k' Hg];
    [done|].
  rewrite transitions_cons in Hlen.
  destruct i as [|i], j as [|j]; simpl in Hi, Hj; try done.
  - injection Hi as ->. rewrite Hf in Hlen. simpl in Hlen.
    pose proof (transitions_elem ts j g k' Hj Hg) as Hin.
    destruct (transitions ts); [by apply elem_of_nil in Hin | simpl in Hlen; lia].
  - injection Hj as ->. rewrite Hg in Hlen. simpl in Hlen.
    pose proof (transitions_elem ts i f k Hi Hf) as Hin.
    destruct (transitions ts); [by apply elem_of_nil in Hin | simpl in Hlen; lia].
  - f_equal. apply (IH i j); eauto.
    destruct (in_transition x); simpl in Hlen; lia.
Qed.

(** X9: without locker the hooks never overlap.  In every reachable world
    at most one call is between the invocation of its hook and its end, and
    the flags name the transition it is in: a second [_open()] or
    [_close()] is never started while one is running. *)
Theorem hooks_never_overlap_without_locker (w : World) (i j : nat) (f g : frame) :
  reachable w ->
  tasks w !! i = Some f -> tasks w !! j = Some g ->
  is_Some (in_transition f) -> is_Some (in_transition g) ->
  i = j /\ state_of (this w) = in_transition f.
Proof.
  intros [ls Hrun] Hi Hj Hf Hg.
  pose proof (lockless_inv_run ls init w lockless_inv_init Hrun) as Hinv.
  split.
  - apply (transitions_unique (tasks w) i j f g); try done.
    rewrite (inv_transitions w Hinv). unfold expected_transitions.
    destruct (state_of (this w)) as [[]|]; simpl; lia.
  - destruct Hf as [k Hk]. rewrite Hk. by apply (in_transition_state w i f k).
Qed.

Lemma hooks_never_overlap_without_locker_witness :
  0 = 0 /\ state_of (this (call_open init)) = in_transition (OpenHook false).
Proof.
  apply (hooks_never_overlap_without_locker (call_open init) 0 0
           (OpenHook false) (OpenHook false)).
  - exists [CallOpen]. reflexivity.
  - reflexivity.
  - reflexivity.
  - by eexists.
  - by eexists.
Defined.

Lemma resolve_waiting v t ts i :
  resolve v t ts !! i = Some (OpenOnOpen None) -> ts !! i = Some (OpenOnOpen None).
Proof.
  unfold resolve. destruct (ts !! t) as [f|] eqn:Ht; [|done].
  destruct f as [| [] | | | | | [] | | | |]; try done.
  - destruct (decide (t = i)) as [->|Hne].
    + rewrite list_lookup_insert_eq by by eapply lookup_lt_Some. done.
    + by rewrite list_lookup_insert_ne.
  - destruct (decide (t = i)) as [->|Hne].
    + rewrite list_lookup_insert_eq by by eapply lookup_lt_Some. done.
    + by rewrite list_lookup_insert_ne.
Qed.

Lemma call_listeners_waiting v ls ts i :
  call_listeners v ls ts !! i = Some (OpenOnOpen None) ->
  ts !! i = Some (OpenOnOpen None).
Proof.
  unfold call_listeners. revert ts.
  induction ls as [|t ls IH]; intros ts H; simpl in H; [done|].
  by apply (resolve_waiting v t), IH.
Qed.

Lemma resolve_no_close_waiter v t ts :
  Forall (fun f => is_close_waiter f = false) ts ->
  Forall (fun f => is_close_waiter f = false) (resolve v t ts).
Proof.
  intros H. unfold resolve. destruct (ts !! t) as [f|] eqn:Ht; [|done].
  pose proof (Forall_lookup_1 _ _ _ _ H Ht) as Hf.
  destruct f as [| [] | | | | | [] | | | |]; try done; by apply Forall_insert.
Qed.

Lemma call_listeners_no_close_waiter v ls ts :
  Forall (fun f => is_close_waiter f = false) ts ->
  Forall (fun f => is_close_waiter f = false) (call_listeners v ls ts).
Proof.
  unfold call_listeners. revert ts.
  induction ls as [|t ls IH]; intros ts H; simpl; [done|].
  by apply IH, resolve_no_close_waiter.
Qed.

Lemma call_listeners_resolves v ls ts t :
  t ∈ ls -> ts !! t = Some (OpenOnOpen None) ->
  call_listeners v ls ts !! t = Some (OpenOnOpen (Some v)).
Proof.
  unfold call_listeners. revert ts.
  induction ls as [|a ls IH]; intros ts Hin Ht; [by apply elem_of_nil in Hin|].
  simpl. destruct (decide (a = t)) as [->|Hne].
  - apply (call_listeners_other v ls); [|done].
    unfold resolve. rewrite Ht.
    apply list_lookup_insert_eq. by eapply lookup_lt_Some.
  - apply IH.
    + apply elem_of_cons in Hin. by destruct Hin as [->|].
    + unfold resolve.
      destruct (ts !! a) as [[| [] | | | | | [] | | | |]|];
        by rewrite ?list_lookup_insert_ne.
Qed.

Lemma lookup_spawned_waiting (ts : list frame) (f : frame) (t : nat) :
  (ts ++ [f]) !! t = Some (OpenOnOpen None) ->
  ts !! t = Some (OpenOnOpen None) \/ (t = length ts /\ f = OpenOnOpen None).
Proof.
  intros H. destruct (decide (t < length ts)) as [Hlt|Hge].
  - left. by rewrite lookup_app_l in H.
  - right. rewrite lookup_app_r in H by lia.
    destruct (t - length ts) as [|n] eqn:E; simpl in H; [|done].
    split; [lia | congruence].
Qed.

Lemma lookup_insert_waiting (ts : list frame) (t i : nat) (f : frame) :
  f <> OpenOnOpen None ->
  <[t := f]> ts !! i = Some (OpenOnOpen None) -> ts !! i = Some (OpenOnOpen None).
Proof.
  intros Hf H. destruct (decide (t = i)) as [->|Hne].
  - destruct (decide (i < length ts)).
    + rewrite list_lookup_insert_eq in H by done. congruence.
    + by rewrite list_insert_ge in H by lia.
  - by rewrite list_lookup_insert_ne in H.
Qed.

Lemma waiters_inv_init : waiters_inv init.
Proof. split; [constructor | done]. Qed.

Lemma listeners_delete_ne (e e' : string) (o : AsyncObject) :
  e' <> e -> listeners e (removeAllListeners e' o) = listeners e o.
Proof. intros H. unfold listeners. simpl. by rewrite lookup_delete_ne. Qed.

Lemma listeners_once (e : string) (t : nat) (o : AsyncObject) :
  listeners e (once e t o) = listeners e o ++ [t].
Proof. unfold listeners at 1. simpl. by rewrite lookup_insert_eq. Qed.

Lemma waiters_inv_step (w w' : World) (l : label) :
  lockless_inv w -> waiters_inv w -> step l w = Some w' -> waiters_inv w'.
Proof.
  intros Hinv [Hnc Hreg] Hstep.
  destruct l as [| | t | t e | t]; simpl in Hstep.
  - injection Hstep as <-. destruct Hinv as [Hlk Hfl Hnl Htr].
    destruct w as [[ld cl lded lk ev] ts tr]. simpl in *. subst lk.
    unfold call_open; simpl.
    destruct cl, lded, ld; try discriminate; run_model.
    all: split; simpl.
    all: try (apply Forall_app; split;
              [by repeat apply call_listeners_no_close_waiter | by repeat constructor]).
    + intros t Ht. apply lookup_spawned_waiting in Ht as [Ht|[_ Ht]]; [auto|done].
    + intros t Ht. apply lookup_spawned_waiting in Ht as [Ht|[_ Ht]]; [auto|done].
    + intros t Ht. unfold listeners. simpl. rewrite lookup_insert_eq. simpl.
      apply elem_of_app.
      apply lookup_spawned_waiting in Ht as [Ht|[-> _]].
      * left. by apply Hreg.
      * right. by apply list_elem_of_singleton.
    + intros t Ht. apply lookup_spawned_waiting in Ht as [Ht|[_ Ht]]; [|done].
      apply call_listeners_waiting in Ht.
      unfold listeners. simpl. rewrite lookup_delete_ne by done. by apply Hreg.
  - injection Hstep as <-. destruct Hinv as [Hlk Hfl Hnl Htr].
    destruct w as [[ld cl lded lk ev] ts tr]. simpl in *. subst lk.
    unfold call_close; simpl.
    destruct cl, lded, ld; try discriminate; run_model.
    all: split; simpl.
    all: try (apply Forall_app; split;
              [by repeat apply call_listeners_no_close_waiter | by repeat constructor]).
    all: intros t Ht; apply lookup_spawned_waiting in Ht as [Ht|[_ Ht]]; [|done].
    all: try (by apply Hreg).
    apply call_listeners_waiting in Ht.
    unfold listeners. simpl. rewrite lookup_delete_ne by done. by apply Hreg.
  - unfold hook_settles in Hstep.
    destruct (tasks w !! t) as [f|] eqn:Ht; [|done].
    destruct f; try done; injection Hstep as <-;
      (split; simpl;
       [ by apply Forall_insert
       | intros i Hi; apply lookup_insert_waiting in Hi; [by apply Hreg | done] ]).
  - unfold hook_settles in Hstep.
    destruct (tasks w !! t) as [f|] eqn:Ht; [|done].
    destruct f; try done; injection Hstep as <-;
      (split; simpl;
       [ by apply Forall_insert
       | intros i Hi; apply lookup_insert_waiting in Hi; [by apply Hreg | done] ]).
  - unfold resume in Hstep.
    destruct (tasks w !! t) as [f|] eqn:Ht; [|done].
    destruct Hinv as [Hlk Hfl Hnl Htr].
    pose proof (Forall_lookup_1 _ _ _ _ Hnl Ht) as Hnot.
    destruct f as [| [v|] | [] | | held [err|] | | [v|] | [] | | held [err|] |];
      try done; injection Hstep as <-;
      try (split; simpl;
           [ by apply Forall_insert
           | intros i Hi; apply lookup_insert_waiting in Hi; [by apply Hreg | done] ]).
    all: destruct w as [[ld cl lded lk ev] ts tr]; simpl in *; subst lk.
    all: unfold_model; destruct held; simpl.
    all: split; simpl;
           [ by apply Forall_insert; [repeat apply call_listeners_no_close_waiter|] | ].
    all: intros i Hi; apply lookup_insert_waiting in Hi; [|done].
    all: repeat (match type of Hi with
                 | call_listeners _ (listeners "error" _) _ !! _ = _ =>
                     apply call_listeners_waiting in Hi
                 end).
    all: pose proof (call_listeners_waiting _ _ _ _ Hi) as Hw.
    all: pose proof (Hreg _ Hw) as Hin.
    all: unfold listeners in *; simpl in *.
    all: rewrite ?lookup_delete_ne by done; try done.
    all: by rewrite (call_listeners_resolves _ _ _ _ Hin Hw) in Hi.
Qed.

Lemma waiters_inv_run (ls : list label) (w w' : World) :
  lockless_inv w -> waiters_inv w -> run ls w = Some w' -> waiters_inv w'.
Proof.
  revert w. induction ls as [|l ls IH]; intros w Hinv Hw Hrun; simpl in Hrun.
  - by injection Hrun as <-.
  - destruct (step l w) as [w1|] eqn:Hstep; [|done].
    eapply (IH w1); [by eapply lockless_inv_step | by eapply waiters_inv_step | done].
Qed.

(** X10: without locker no call ever suspends on [_onClose()]: the test of
    [loaded] comes first and [loaded] is cleared as soon as a close starts.
    A [close()] made while another one is in flight (Closing) resolves
    after one tick, without waiting for the teardown to end. *)
Theorem close_never_waits_without_locker (w : World) :
  reachable w ->
  (forall t v, tasks w !! t <> Some (CloseOnClose v)) /\
  (state_of (this w) = Some Closing ->
   run [CallClose; Resume (length (tasks w))] w =
     Some (mkWorld (this w)
                   (tasks w ++ [Settled (Resolved VUndefined)])
                   (trace w))).
Proof.
  intros [ls Hrun].
  pose proof (waiters_inv_run ls init w lockless_inv_init waiters_inv_init Hrun)
    as [Hnc _].
  split.
  - intros t v Ht. by pose proof (Forall_lookup_1 _ _ _ _ Hnc Ht).
  - intros Hs. apply close_not_loaded_run; unfold state_of in Hs;
      by destruct (loading (this w)), (closing (this w)), (loaded (this w)).
Qed.

Lemma close_never_waits_without_locker_witness :
  exists w,
    run [CallOpen; HookOk 0; Resume 0; CallClose] init = Some w /\
    (forall t v, tasks w !! t <> Some (CloseOnClose v)) /\
    (state_of (this w) = Some Closing ->
     run [CallClose; Resume (length (tasks w))] w =
       Some (mkWorld (this w)
                     (tasks w ++ [Settled (Resolved VUndefined)])
                     (trace w))).
Proof.
  eexists. split; [reflexivity|].
  apply close_never_waits_without_locker.
  exists [CallOpen; HookOk 0; Resume 0; CallClose]. reflexivity.
Defined.

(** X11: without locker the waiters of an [open()] settle with it, all of
    them and whatever was called in between.  When the call that ran the
    hook resumes from its [co.wait()], every call suspended on [_onOpen()]
    has its [resolve] called, with no argument when the hook succeeded and
    with the Error when it failed; each then resolves with that value, and
    no call is left waiting for 'open'. *)
Theorem waiters_settle_with_open_without_locker
    (w : World) (t : nat) (held : bool) (err : option error) :
  reachable w ->
  tasks w !! t = Some (OpenTick held err) ->
  exists w',
    step (Resume t) w = Some w' /\
    (forall i, tasks w !! i = Some (OpenOnOpen None) ->
               tasks w' !! i = Some (OpenOnOpen (Some (argument err))) /\
               exists w'', step (Resume i) w' = Some w'' /\
                 tasks w'' !! i = Some (Settled (Resolved (argument err)))) /\
    (forall i, tasks w' !! i <> Some (OpenOnOpen None)).
Proof.
  intros [ls Hrun] Ht.
  pose proof (lockless_inv_run ls init w lockless_inv_init Hrun) as Hinv.
  pose proof (waiters_inv_run ls init w lockless_inv_init waiters_inv_init Hrun)
    as [Hnc Hreg].
  destruct Hinv as [Hlk _ _ _].
  assert (Hset : forall i, tasks w !! i = Some (OpenOnOpen None) ->
            exists w', step (Resume t) w = Some w' /\
              tasks w' !! i = Some (OpenOnOpen (Some (argument err)))).
  { intros i Hi. pose proof (Hreg i Hi) as Hin.
    assert (Hne : t <> i) by (intros ->; congruence).
    simpl. unfold resume. rewrite Ht.
    destruct w as [[ld cl lded lk ev] ts tr]; simpl in *; subst lk.
    destruct err as [e|]; eexists; (split; [reflexivity|]);
      unfold_model; destruct held; simpl;
      rewrite list_lookup_insert_ne by done;
      first [ by apply call_listeners_resolves
            | apply call_listeners_other;
                [by apply call_listeners_resolves | reflexivity] ]. }
  assert (Hex : exists w', step (Resume t) w = Some w').
  { simpl. unfold resume. rewrite Ht. destruct err; eauto. }
  destruct Hex as [w' Hstep]. exists w'. split; [done|]. split.
  - intros i Hi. destruct (Hset i Hi) as (w1 & Hs1 & Hl1).
    rewrite Hstep in Hs1. injection Hs1 as <-. split; [done|].
    simpl. unfold resume. rewrite Hl1. eexists. split; [reflexivity|].
    simpl. apply lookup_settled. by eapply lookup_lt_Some.
  - intros i Hi.
    pose proof (lockless_inv_run ls init w lockless_inv_init Hrun) as Hinv.
    pose proof (waiters_inv_run ls init w lockless_inv_init waiters_inv_init Hrun)
      as Hwi.
    pose proof (waiters_inv_step w w' (Resume t) Hinv Hwi Hstep) as [_ Hreg'].
    pose proof (Hreg' i Hi) as Hin.
    simpl in Hstep. unfold resume in Hstep. rewrite Ht in Hstep.
    destruct w as [[ld cl lded lk ev] ts tr]; simpl in *; subst lk.
    destruct err as [e|]; injection Hstep as <-; revert Hin;
      unfold_model; destruct held; unfold listeners; simpl;
      rewrite ?lookup_delete_ne by done; rewrite lookup_delete_eq; simpl;
      apply not_elem_of_nil.
Qed.

Lemma waiters_settle_with_open_without_locker_witness :
  exists w,
    run [CallOpen; CallOpen; HookOk 0] init = Some w /\
    tasks w !! 1 = Some (OpenOnOpen None) /\
    exists w',
      step (Resume 0) w = Some w' /\
      (forall i, tasks w !! i = Some (OpenOnOpen None) ->
                 tasks w' !! i = Some (OpenOnOpen (Some (argument None))) /\
                 exists w'', step (Resume i) w' = Some w'' /\
                   tasks w'' !! i = Some (Settled (Resolved (argument None)))) /\
      (forall i, tasks w' !! i <> Some (OpenOnOpen None)).
Proof.
  eexists. split; [reflexivity|]. split; [reflexivity|].
  apply (waiters_settle_with_open_without_locker _ 0 false None).
  - exists [CallOpen; CallOpen; HookOk 0]. reflexivity.
  - reflexivity.
Defined.


End Async.

(** ** env.js *)

Module Env.

Local Set Warnings "-register-all".

(** The JavaScript values an options object can hold.  Finite numbers are
    modelled by integers; [NaN] and the infinities are numbers too. *)
Inductive value :=
| VUndefined
| VNull
| VBool (b : bool)
| VNumber (n : Z)
| VNaN
| VInfinity (negative : bool)
| VString (s : string)
| VObject (fields : gmap string value)
| VFunction.

Inductive jstype :=
| TUndefined | TObject | TBoolean | TNumber | TString | TFunction.

(** [typeof v] *)
Definition typeof (v : value) : jstype :=
  match v with
  | VUndefined => TUndefined
  | VNull => TObject
  | VBool _ => TBoolean
  | VNumber _ | VNaN | VInfinity _ => TNumber
  | VString _ => TString
  | VObject _ => TObject
  | VFunction => TFunction
  end.

(** The truth value of [v] in [if (v)] and [!v]. *)
Definition truthy (v : value) : bool :=
  match v with
  | VUndefined | VNull | VNaN => false
  | VBool b => b
  | VNumber n => negb (n =? 0)%Z
  | VString s => negb (String.eqb s "")
  | VInfinity _ | VObject _ | VFunction => true
  end.

(** [o.k]: a field that is absent reads as [undefined], and so does any of
    the option names on a value that is no object. *)
Definition get (o : value) (k : string) : value :=
  match o with
  | VObject fields => default VUndefined (fields !! k)
  | _ => VUndefined
  end.

Section Environment.

(** What [set] uses and the sources do not contain: the network registry
    with its [set], the signature cache with its [resize],
    [utils.isNumber], [utils.isBrowser], and the two globals a browser
    offers workers through. *)
Variable Network : Type.
Variable network_set : value -> Network -> Network.
Variable SigCache : Type.
Variable sigcache_resize : value -> SigCache -> SigCache.
Variable isNumber : value -> bool.
Variable isBrowser : bool.
Variable global_Worker : value.
Variable global_postMessage : value.

(** The two settings of the worker pool that [set] assigns. *)
Record Workers := mkWorkers {
  size : value;
  timeout : value
}.

(** The fields of the environment that [set] reads or writes. *)
Record Environment := mkEnvironment {
  network : Network;
  sigcache : SigCache;
  workerPool : Workers;
  useWorkers : bool
}.

Definition is_function (v : value) : bool :=
  match typeof v with TFunction => true | _ => false end.

(** [Environment.prototype.set] *)
Definition set (options : value) (this : Environment) : Environment :=
  let options :=
    match typeof options with
    | TString => VObject {[ "network" := options ]}
    | _ => options
    end in
  let options := if truthy options then options else VObject ∅ in
  let network' :=
    if truthy (get options "network")
    then network_set (get options "network") (network this)
    else network this in
  let useWorkers' :=
    match get options "useWorkers" with
    | VBool b => b
    | _ => useWorkers this
    end in
  let size' :=
    if isNumber (get options "maxWorkers")
    then get options "maxWorkers"
    else size (workerPool this) in
  let timeout' :=
    if isNumber (get options "workerTimeout")
    then get options "workerTimeout"
    else timeout (workerPool this) in
  let useWorkers'' :=
    if isBrowser && useWorkers'
    then is_function global_Worker || is_function global_postMessage
    else useWorkers' in
  let sigcache' :=
    if isNumber (get options "sigcacheSize")
    then sigcache_resize (get options "sigcacheSize") (sigcache this)
    else sigcache this in
  mkEnvironment network' sigcache' (mkWorkers size' timeout') useWorkers''.

(** The environments the program can be in: the constructor creates the
    instances, clears [useWorkers] and calls [set]; afterwards the settings
    change through [set]. *)
Inductive reachable : Environment -> Prop :=
| reachable_new (n : Network) (c : SigCache) (p : Workers) :
    reachable (mkEnvironment n c p false)
| reachable_set (options : value) (env : Environment) :
    reachable env -> reachable (set options env).

(** In a browser the flag is only ever left set when workers exist. *)
Definition workers_usable (env : Environment) : Prop :=
  isBrowser = true -> useWorkers env = true ->
  is_function global_Worker || is_function global_postMessage = true.

Lemma get_of_replaced (options : value) (k : string) :
  k <> "network" ->
  get (if truthy
            match typeof options with
            | TString => VObject {[ "network" := options ]}
            | _ => options
            end
       then match typeof options with
            | TString => VObject {[ "network" := options ]}
            | _ => options
            end
       else VObject ∅) k = get options k.
Proof.
  intros Hk. destruct options as [| | b | n | | neg | s | fields |]; simpl; try done.
  - by destruct b.
  - by destruct (negb (n =? 0)%Z).
  - by rewrite lookup_singleton_ne.
Qed.

(** X5: every environment the constructor and [set] produce keeps the flag
    usable: in a browser, [useWorkers] is set only when [global.Worker] or
    [global.postMessage] is a function. *)
Lemma reachable_workers_usable (env : Environment) :
  reachable env -> workers_usable env.
Proof.
  intros H. induction H as [n c p | options env H IH]; unfold workers_usable.
  - simpl. discriminate.
  - intros Hb. unfold set. simpl. rewrite Hb. simpl.
    by destruct (match get _ "useWorkers" with VBool b => b | _ => useWorkers env end).
Qed.

Hypothesis isNumber_typeof : forall v, isNumber v = true -> typeof v = TNumber.

Lemma not_number_isNumber (v : value) : typeof v <> TNumber -> isNumber v = false.
Proof.
  intros H. destruct (isNumber v) eqn:E; [|done].
  by apply isNumber_typeof in E.
Qed.

(** The flag after [set]: the option when it is a boolean, the former
    value otherwise, and in a browser a set flag gives way to what the
    platform offers. *)
Lemma set_useWorkers (env : Environment) (options : value) :
  useWorkers (set options env) =
    let flag := match get options "useWorkers" with
                | VBool b => b
                | _ => useWorkers env
                end in
    if isBrowser && flag
    then is_function global_Worker || is_function global_postMessage
    else flag.
Proof. unfold set. simpl. by rewrite get_of_replaced. Qed.

(** C9: whatever is passed to [set], an option among [maxWorkers],
    [workerTimeout] and [sigcacheSize] that is absent or whose value is not
    of type number leaves the pool's size, the pool's timeout and the
    signature cache as they were; and when [set] changes [useWorkers], the
    option [useWorkers] was of type boolean.  The last part is about the
    environments in which the flag is usable, which are all of them outside
    a browser, and in a browser all those the constructor and [set] produce
    ([reachable_workers_usable]). *)
Theorem set_frame (env : Environment) (options : value) :
  (typeof (get options "maxWorkers") <> TNumber ->
   size (workerPool (set options env)) = size (workerPool env)) /\
  (typeof (get options "workerTimeout") <> TNumber ->
   timeout (workerPool (set options env)) = timeout (workerPool env)) /\
  (typeof (get options "sigcacheSize") <> TNumber ->
   sigcache (set options env) = sigcache env) /\
  (workers_usable env ->
   useWorkers (set options env) <> useWorkers env ->
   typeof (get options "useWorkers") = TBoolean).
Proof.
  repeat split.
  - intros H. unfold set. simpl.
    rewrite get_of_replaced by done. by rewrite not_number_isNumber.
  - intros H. unfold set. simpl.
    rewrite get_of_replaced by done. by rewrite not_number_isNumber.
  - intros H. unfold set. simpl.
    rewrite get_of_replaced by done. by rewrite not_number_isNumber.
  - intros Hu. unfold workers_usable in Hu. rewrite set_useWorkers. simpl.
    destruct (get options "useWorkers"); try done; intros H; exfalso; apply H.
    all: destruct isBrowser, (useWorkers env); simpl; try done; by rewrite Hu.
Qed.

(** *** What a call of [set] amounts to *)

(** The names [set] reads from its argument. *)
Definition option_names : list string :=
  ["network"; "useWorkers"; "maxWorkers"; "workerTimeout"; "sigcacheSize"].

Lemma isNumber_undefined : isNumber VUndefined = false.
Proof. by apply not_number_isNumber. Qed.

Lemma workers_usable_flag (env : Environment) :
  workers_usable env ->
  (if isBrowser && useWorkers env
   then is_function global_Worker || is_function global_postMessage
   else useWorkers env) = useWorkers env.
Proof.
  unfold workers_usable. intros Hu.
  destruct isBrowser, (useWorkers env); simpl; try done. by rewrite Hu.
Qed.

(** X12: [set(name)] with a string is the call that selects a network: a
    name that is not empty is handed to the network registry, and pool,
    signature cache and flag are as before; the empty string changes
    nothing at all. *)
Theorem set_network_name (env : Environment) (name : string) :
  workers_usable env ->
  set (VString name) env =
    mkEnvironment
      (if String.eqb name "" then network env
       else network_set (VString name) (network env))
      (sigcache env) (workerPool env) (useWorkers env).
Proof.
  intros Hu. unfold set. simpl. rewrite lookup_singleton_eq. simpl.
  rewrite !lookup_singleton_ne by done. simpl.
  rewrite isNumber_undefined, workers_usable_flag by done.
  destruct env as [n c [sz tm] u]. simpl. by destruct (String.eqb name "").
Qed.

(** X13: a call of [set] whose argument is no string and holds none of the
    five options ([set()], [set(null)], [set({})], an object with other
    keys) leaves the environment as it is. *)
Theorem set_nothing (env : Environment) (options : value) :
  typeof options <> TString ->
  (forall k, k ∈ option_names -> get options k = VUndefined) ->
  workers_usable env ->
  set options env = env.
Proof.
  intros Hs Hk Hu.
  assert (Hget : forall k, k ∈ option_names ->
            get (if truthy options then options else VObject ∅) k = VUndefined).
  { intros k Hin. destruct (truthy options); [by apply Hk | done]. }
  unfold set.
  replace (match typeof options with
           | TString => VObject {[ "network" := options ]}
           | _ => options
           end) with options by (by destruct options).
  simpl. rewrite !Hget by (unfold option_names; set_solver).
  simpl. rewrite isNumber_undefined, workers_usable_flag by done.
  by destruct env as [n c [sz tm] u].
Qed.

(** X14: a boolean [useWorkers] option switches the workers off wherever
    it is given, and on only where the platform has them: outside a
    browser, or where [global.Worker] or [global.postMessage] is a
    function. *)
Theorem set_useWorkers_boolean (env : Environment) (options : value) (b : bool) :
  get options "useWorkers" = VBool b ->
  useWorkers (set options env) =
    b && (negb isBrowser
          || is_function global_Worker || is_function global_postMessage).
Proof.
  intros H. rewrite set_useWorkers, H. simpl.
  by destruct isBrowser, b,
       (is_function global_Worker), (is_function global_postMessage).
Qed.

(** X15: [set] twice with the same argument settles the pool and the flag
    after the first call: the second one changes neither. *)
Theorem set_twice (env : Environment) (options : value) :
  workerPool (set options (set options env)) = workerPool (set options env) /\
  useWorkers (set options (set options env)) = useWorkers (set options env).
Proof.
  split.
  - unfold set. simpl.
    by destruct (isNumber (get _ "maxWorkers")),
                (isNumber (get _ "workerTimeout")).
  - rewrite !set_useWorkers. simpl.
    destruct (get options "useWorkers"); try done;
      by destruct isBrowser, (useWorkers env),
           (is_function global_Worker), (is_function global_postMessage).
Qed.

(** *** The constructor *)

(** The variables of [process.env] the constructor reads: each is a string,
    or absent. *)
Record process_env := mk_process_env {
  BCOIN_NETWORK : option string;
  BCOIN_USE_WORKERS : option string;
  BCOIN_MAX_WORKERS : option string;
  BCOIN_WORKER_TIMEOUT : option string;
  BCOIN_SIGCACHE_SIZE : option string
}.

(** The number a string converts to (JavaScript's ToNumber on strings). *)
Variable to_number : string -> value.

(** [+process.env.NAME]: an absent variable reads as [undefined], which
    converts to [NaN]. *)
Definition unary_plus (v : option string) : value :=
  match v with
  | Some s => to_number s
  | None => VNaN
  end.

(** [process.env.BCOIN_NETWORK || 'main'] *)
Definition network_or_main (v : option string) : string :=
  match v with
  | Some s => if String.eqb s "" then "main" else s
  | None => "main"
  end.

(** [v === 1] *)
Definition is_one (v : value) : bool :=
  match v with
  | VNumber 1 => true
  | _ => false
  end.

(** [function Environment()], from the global instances on: [n], [c] and
    [p] are the network registry, [new this.sc(0)] and
    [new this.workers()]; the flag is cleared and [set] is called with the
    options read from [process.env]. *)
Definition new_Environment (n : Network) (c : SigCache) (p : Workers)
    (pe : process_env) : Environment :=
  set (VObject
         (<[ "network" := VString (network_or_main (BCOIN_NETWORK pe)) ]>
         (<[ "useWorkers" := VBool (is_one (unary_plus (BCOIN_USE_WORKERS pe))) ]>
         (<[ "maxWorkers" := unary_plus (BCOIN_MAX_WORKERS pe) ]>
         (<[ "workerTimeout" := unary_plus (BCOIN_WORKER_TIMEOUT pe) ]>
         (<[ "sigcacheSize" := unary_plus (BCOIN_SIGCACHE_SIZE pe) ]> ∅))))))
      (mkEnvironment n c p false).

Lemma network_or_main_truthy (v : option string) :
  negb (String.eqb (network_or_main v) "") = true.
Proof.
  destruct v as [s|]; simpl; [|done].
  by destruct (String.eqb s "") eqn:E; simpl; [|rewrite E].
Qed.

(** X18: the constructor always selects a network, BCOIN_NETWORK when it
    is set and not empty and 'main' otherwise; it leaves workers enabled
    only when BCOIN_USE_WORKERS converts to the number 1 and the platform
    has them; and when none of the variables is set (and [isNumber]
    rejects [NaN]) pool and signature cache keep what their own
    constructors gave them. *)
Theorem new_Environment_defaults (n : Network) (c : SigCache) (p : Workers)
    (pe : process_env) :
  network (new_Environment n c p pe)
    = network_set (VString (network_or_main (BCOIN_NETWORK pe))) n /\
  useWorkers (new_Environment n c p pe)
    = is_one (unary_plus (BCOIN_USE_WORKERS pe))
      && (negb isBrowser
          || is_function global_Worker || is_function global_postMessage) /\
  (isNumber VNaN = false ->
   new_Environment n c p (mk_process_env None None None None None)
   = mkEnvironment (network_set (VString "main") n) c p false).
Proof.
  unfold new_Environment. repeat split.
  - unfold set. simpl. rewrite lookup_insert_eq. simpl.
    by rewrite network_or_main_truthy.
  - rewrite set_useWorkers. simpl.
    rewrite lookup_insert_ne, lookup_insert_eq by done. simpl.
    by destruct isBrowser, (is_one _),
         (is_function global_Worker), (is_function global_postMessage).
  - intros HN. unfold set. simpl.
    rewrite lookup_insert_eq. simpl.
    repeat (rewrite ?lookup_insert_eq; rewrite ?lookup_insert_ne by done; simpl).
    rewrite HN. simpl. rewrite andb_false_r. by destruct p.
Qed.

End Environment.

Arguments mkWorkers size timeout : assert.
Arguments mkEnvironment {Network SigCache} network sigcache workerPool useWorkers.
Arguments network {Network SigCache} e.
Arguments sigcache {Network SigCache} e.
Arguments workerPool {Network SigCache} e.
Arguments useWorkers {Network SigCache} e.
Arguments set {Network} network_set {SigCache} sigcache_resize isNumber isBrowser global_Worker global_postMessage options this.
Arguments reachable {Network} network_set {SigCache} sigcache_resize isNumber isBrowser global_Worker global_postMessage e.
Arguments workers_usable {Network SigCache} isBrowser global_Worker global_postMessage env.

(** *** A concrete platform *)

(** [utils.isNumber] as bcoin has it: [typeof v === 'number' && isFinite(v)]. *)
Definition finite_number (v : value) : bool :=
  match v with VNumber _ => true | _ => false end.

(** The network registry reduced to the name of the network chosen. *)
Definition choose_network (v : value) (n : string) : string :=
  match v with VString s => s | _ => n end.

(** The signature cache reduced to its capacity. *)
Definition capacity (v : value) (c : Z) : Z :=
  match v with VNumber n => n | _ => c end.

(** A browser without workers: [global.Worker] and [global.postMessage]
    are both [undefined]. *)
Definition browser_set : value -> Environment string Z -> Environment string Z :=
  set choose_network capacity finite_number true VUndefined VUndefined.

(** The environment after [set({ useWorkers: true, maxWorkers: 4 })] on a
    fresh one. *)
Definition browser_env : Environment string Z :=
  browser_set
    (VObject {[ "useWorkers" := VBool true; "maxWorkers" := VNumber 4 ]})
    (mkEnvironment "main" 0%Z (mkWorkers (VNumber 6) (VNumber 60000)) false).

Definition sloppy_options : value :=
  VObject {[ "maxWorkers" := VString "8"; "workerTimeout" := VNull;
             "useWorkers" := VNumber 1 ]}.

Lemma finite_number_typeof (v : value) :
  finite_number v = true -> typeof v = TNumber.
Proof. by destruct v. Qed.

Lemma set_frame_witness :
  workers_usable true VUndefined VUndefined browser_env /\
  (typeof (get sloppy_options "maxWorkers") <> TNumber ->
   size (workerPool (browser_set sloppy_options browser_env))
   = size (workerPool browser_env)) /\
  (typeof (get sloppy_options "workerTimeout") <> TNumber ->
   timeout (workerPool (browser_set sloppy_options browser_env))
   = timeout (workerPool browser_env)) /\
  (typeof (get sloppy_options "sigcacheSize") <> TNumber ->
   sigcache (browser_set sloppy_options browser_env)
   = sigcache browser_env) /\
  (workers_usable true VUndefined VUndefined browser_env ->
   useWorkers (browser_set sloppy_options browser_env)
   <> useWorkers browser_env ->
   typeof (get sloppy_options "useWorkers") = TBoolean).
Proof.
  split.
  - intros _ H. vm_compute in H. discriminate.
  - exact (set_frame string choose_network Z capacity finite_number
             true VUndefined VUndefined finite_number_typeof
             browser_env sloppy_options).
Defined.

Lemma reachable_workers_usable_witness :
  workers_usable true VUndefined VUndefined browser_env.
Proof.
  apply (reachable_workers_usable string choose_network Z capacity finite_number
           true VUndefined VUndefined).
  apply reachable_set, reachable_new.
Defined.

Lemma browser_env_usable :
  workers_usable true VUndefined VUndefined browser_env.
Proof. intros _ H. vm_compute in H. discriminate. Qed.

Lemma set_network_name_witness :
  browser_set (VString "testnet") browser_env =
    mkEnvironment
      (if String.eqb "testnet" "" then network browser_env
       else choose_network (VString "testnet") (network browser_env))
      (sigcache browser_env) (workerPool browser_env) (useWorkers browser_env).
Proof.
  exact (set_network_name string choose_network Z capacity finite_number
           true VUndefined VUndefined finite_number_typeof
           browser_env "testnet" browser_env_usable).
Defined.

Lemma set_nothing_witness :
  browser_set (VObject {[ "prefix" := VString "~/.bcoin" ]}) browser_env
  = browser_env.
Proof.
  apply (set_nothing string choose_network Z capacity finite_number
           true VUndefined VUndefined finite_number_typeof).
  - discriminate.
  - intros k Hk. unfold option_names in Hk. simpl.
    rewrite lookup_singleton_ne; [done|]. intros <-.
    repeat (apply elem_of_cons in Hk as [Hk|Hk]; [discriminate|]).
    by apply elem_of_nil in Hk.
  - exact browser_env_usable.
Defined.

Lemma set_useWorkers_boolean_witness :
  useWorkers (browser_set (VObject {[ "useWorkers" := VBool true ]}) browser_env)
  = true && (negb true || is_function VUndefined || is_function VUndefined).
Proof.
  apply (set_useWorkers_boolean string choose_network Z capacity finite_number
           true VUndefined VUndefined browser_env
           (VObject {[ "useWorkers" := VBool true ]}) true).
  reflexivity.
Defined.

(** Outside those environments: when the flag has been set by an
    assignment of its own, in a browser without workers, [set] clears it
    even for an empty options object. *)
Lemma set_clears_flag_assigned_directly :
  useWorkers
    (browser_set (VObject ∅)
       (mkEnvironment "main" 0%Z (mkWorkers (VNumber 6) (VNumber 60000)) true))
  = false.
Proof. reflexivity. Qed.

End Env.

(** ** jobs.js *)

Module Jobs.

Section WithPrimitives.

(** Scripts and witness stacks are carried around, never inspected. *)
Variable Script : Type.
Variable Witness : Type.

Record Input := mkInput {
  script : Script;
  witness : Witness
}.

(** The part of a transaction the jobs read. *)
Record MTX := mkMTX {
  inputs : list Input
}.

(** The values that cross the worker boundary. *)
Inductive value :=
| VUndefined
| VNull
| VBool (b : bool)
| VNumber (n : Z)
| VBuffer (data : list Byte.byte)
| VTX (tx : MTX).

Definition truthy (v : value) : bool :=
  match v with
  | VUndefined | VNull => false
  | VBool b => b
  | VNumber n => negb (n =? 0)%Z
  | VBuffer _ | VTX _ => true
  end.

(** [tx.inputs[index]] *)
Definition input_at (tx : MTX) (index : value) : option Input :=
  match index with
  | VNumber n => if (0 <=? n)%Z then inputs tx !! Z.to_nat n else None
  | _ => None
  end.

(** What a job hands back to the pool: [null], a pair, a value, or the
    TypeError of a property read on [undefined]. *)
Inductive result :=
| RNull
| RPair (s : Script) (w : Witness)
| RValue (v : value)
| RTypeError.

(** The methods and functions the jobs call and the sources do not
    contain.  A method takes the object it is called on and the list of the
    actual arguments of the call, and returns the object as it has left it
    with its result. *)
Variable MTX_verifyInput : MTX -> list value -> value.
Variable MTX_signInput : MTX -> list value -> MTX * value.
Variable crypto_scrypt : list value -> value.

(** [jobs.verifyInput]: [return tx.verifyInput(index, flags);] *)
Definition verifyInput (tx : MTX) (index flags : value) : result :=
  RValue (MTX_verifyInput tx [index; flags]).

(** The arguments of the call [tx.signInput(tx, index, key, type)]. *)
Definition signInput_arguments (tx : MTX) (index key type : value) : list value :=
  [VTX tx; index; key; type].

(** [jobs.signInput] *)
Definition signInput (tx : MTX) (index key type : value) : result :=
  let '(tx', result) := MTX_signInput tx (signInput_arguments tx index key type) in
  let input := input_at tx' index in
  if negb (truthy result) then RNull
  else match input with
       | Some i => RPair (script i) (witness i)
       | None => RTypeError
       end.

(** [jobs.scrypt]: [return scrypt(passwd, salt, N, r, p, len);] *)
Definition scrypt (passwd salt N r p len : value) : value :=
  crypto_scrypt [passwd; salt; N; r; p; len].

(** The bytes of an ASCII string, as [new Buffer(s, 'ascii')] holds them. *)
Definition buffer (s : string) : value :=
  VBuffer (String.list_byte_of_string s).

(** C8: the scrypt job returns what the pure function returns on the same
    six arguments, in the same order; in particular for the password
    "pass", the salt "NaCl", N = 2, r = 8, p = 1 and 32 bytes of output. *)
Theorem scrypt_job_is_direct_call :
  (forall passwd salt N r p len,
     scrypt passwd salt N r p len = crypto_scrypt [passwd; salt; N; r; p; len]) /\
  scrypt (buffer "pass") (buffer "NaCl")
         (VNumber 2) (VNumber 8) (VNumber 1) (VNumber 32)
  = crypto_scrypt [VBuffer [Byte.x70; Byte.x61; Byte.x73; Byte.x73];
                   VBuffer [Byte.x4e; Byte.x61; Byte.x43; Byte.x6c];
                   VNumber 2; VNumber 8; VNumber 1; VNumber 32].
Proof. split; [intros; reflexivity | reflexivity]. Qed.

(** *** [jobs.sign] *)

(** The key rings handed to [tx.sign] are opaque to the job. *)
Variable KeyRings : Type.
Variable MTX_sign : MTX -> KeyRings -> value -> MTX * value.

(** One turn of the loop: [input = tx.inputs[i]; sigs.push([input.script,
    input.witness]);]; [None] stands for the TypeError of a property read
    on [undefined]. *)
Definition push_input (tx : MTX) (sigs : option (list (Script * Witness))) (i : nat)
  : option (list (Script * Witness)) :=
  sigs ← sigs;
  input ← inputs tx !! i;
  Some (sigs ++ [(script input, witness input)]).

(** [jobs.sign]: [total = tx.sign(ring, type)], then the loop
    [for (i = 0; i < tx.inputs.length; i++)], then [return [sigs, total];] *)
Definition sign (tx : MTX) (ring : KeyRings) (type : value)
  : option (list (Script * Witness) * value) :=
  let '(tx', total) := MTX_sign tx ring type in
  sigs ← foldl (push_input tx') (Some []) (seq 0 (length (inputs tx')));
  Some (sigs, total).

Lemma push_inputs (tx : MTX) (n i : nat) (acc : list (Script * Witness)) :
  i + n <= length (inputs tx) ->
  foldl (push_input tx) (Some acc) (seq i n) =
    Some (acc ++ ((fun input => (script input, witness input))
                    <$> take n (drop i (inputs tx)))).
Proof.
  revert i acc. induction n as [|n IH]; intros i acc Hle.
  - simpl. by rewrite app_nil_r.
  - destruct (inputs tx !! i) as [x|] eqn:Hx.
    + assert (Hpush : push_input tx (Some acc) i
                      = Some (acc ++ [(script x, witness x)]))
        by (unfold push_input; simpl; by rewrite Hx).
      cbn [seq foldl]. rewrite Hpush, IH by lia. f_equal.
      rewrite (drop_S _ x i Hx). simpl. by rewrite <- app_assoc.
    + apply lookup_ge_None in Hx. lia.
Qed.

(** X16: the sign job never fails on its own and returns one
    (script, witness) pair per input of the transaction, in input order,
    read after [tx.sign] has run, together with the total that [tx.sign]
    returned, also when nothing was signed or the transaction has no
    input. *)
Theorem sign_collects_every_input (tx : MTX) (ring : KeyRings) (type : value) :
  sign tx ring type =
    Some ((fun input => (script input, witness input))
            <$> inputs (MTX_sign tx ring type).1,
          (MTX_sign tx ring type).2).
Proof.
  unfold sign. destruct (MTX_sign tx ring type) as [tx' total]. simpl.
  rewrite push_inputs by (simpl; lia). simpl.
  by rewrite drop_0, firstn_all.
Qed.


End WithPrimitives.

Arguments mkInput {Script Witness} script witness.
Arguments script {Script Witness} i.
Arguments witness {Script Witness} i.
Arguments mkMTX {Script Witness} inputs.
Arguments inputs {Script Witness} m.
Arguments VUndefined {Script Witness}.
Arguments VNull {Script Witness}.
Arguments VBool {Script Witness} b.
Arguments VNumber {Script Witness} n.
Arguments VBuffer {Script Witness} data.
Arguments VTX {Script Witness} tx.
Arguments RNull {Script Witness}.
Arguments RPair {Script Witness} s w.
Arguments RValue {Script Witness} v.
Arguments RTypeError {Script Witness}.
Arguments input_at {Script Witness} tx index.
Arguments signInput_arguments {Script Witness} tx index key type.
Arguments signInput {Script Witness} MTX_signInput tx index key type.
Arguments verifyInput {Script Witness} MTX_verifyInput tx index flags.
Arguments sign {Script Witness KeyRings} MTX_sign tx ring type.


(** *** A signing primitive with the documented parameters *)

(** [function signInput(index, key, type)]: the formal parameters are bound
    to the actual arguments by position; a missing one is [undefined]. *)
Definition nth_argument {S W : Type} (n : nat) (args : list (value S W)) : value S W :=
  default VUndefined (args !! n).

(** Signs input [index] with [key]: succeeds when [index] is the number of
    an input and [key] is a buffer, and then stores the key in the input's
    script. *)
Definition sign_with_key (tx : MTX (list Byte.byte) unit)
    (args : list (value (list Byte.byte) unit))
  : MTX (list Byte.byte) unit * value (list Byte.byte) unit :=
  let index := nth_argument 0 args in
  let key := nth_argument 1 args in
  match input_at tx index, index, key with
  | Some i, VNumber n, VBuffer k =>
      (mkMTX (<[Z.to_nat n := mkInput k (witness i)]> (inputs tx)), VBool true)
  | _, _, _ => (tx, VBool false)
  end.

Definition one_input : MTX (list Byte.byte) unit :=
  mkMTX [mkInput [] tt].

Definition some_key : value (list Byte.byte) unit :=
  VBuffer [Byte.x01; Byte.x02].

(** C3, what the code does: the job calls the signing primitive with the
    transaction itself as first argument, ahead of the three documented
    ones.  A primitive that binds (index, key, type) by position then reads
    the transaction as the index and the index as the key: on a transaction
    whose input 0 the documented call signs, the job reports failure. *)
Theorem signInput_passes_transaction_first :
  (forall S W (tx : MTX S W) index key type,
     signInput_arguments tx index key type = VTX tx :: [index; key; type]) /\
  sign_with_key one_input [VNumber 0; some_key; VNumber 1]
  = (mkMTX [mkInput [Byte.x01; Byte.x02] tt], VBool true) /\
  signInput sign_with_key one_input (VNumber 0) some_key (VNumber 1) = RNull.
Proof. repeat split. Qed.



End Jobs.
